(** * CosmicSphere: the chord-lit sphere of the StarField sketch

    A shallow embedding of [src/StarField/sketch/CosmicSphere.ts] and of the
    part of p5.js it calls, with the properties of the rendering routine
    [drawSphere].

    Conventions of the embedding.
    - A JavaScript [number] is an ideal real ([R]); rounding is not modelled,
      and a statement that divides by [2 * size] assumes a positive radius.
      The loop bound [iterations] is an integer ([Z]).
    - A [p5.Vector] is a mutable object: vectors live in a heap and variables
      hold locations, so that the in-place methods [add] and [div] are seen
      through every alias.
    - The p5 drawing calls are recorded, in order, on a canvas log.
    - Evaluation is a state monad over the heap, the random source and the
      canvas; [None] stands for a thrown TypeError (a location that holds no
      object). *)

From Stdlib Require Import Reals Lra Lia List ZArith.
Import ListNotations.
Open Scope R_scope.

(** ** The heap of p5.Vector objects and the drawing surface *)

Definition loc := nat.

Module p5.

(** [p5.Vector]: createVector(x, y) leaves [z] at 0. *)
Record Vector : Type := createVector { x : R; y : R; z : R }.

(** [p5.Color] as built by [color(v1, v2, v3, alpha)]: the four arguments
    as they were passed (p5 clamps them only when it paints). *)
Record Color : Type := color { v1 : R; v2 : R; v3 : R; alpha : R }.

(** The two blend modes the sketch uses; [BLEND] is the string
    "source-over". *)
Inductive BlendMode : Type := BLEND | ADD.

(** One call on the drawing surface. *)
Inductive Call : Type :=
| blendMode_ (m : BlendMode)
| fill_ (c : Color)
| noFill_
| circle_ (cx cy d : R)
| stroke_ (c : Color)
| strokeWeight_ (w : R)
| line_ (x1 y1 x2 y2 : R).

(** [constrain(n, low, high)] is Math.max(Math.min(n, high), low). *)
Definition constrain (n low high : R) : R := Rmax (Rmin n high) low.

(** [map(n, start1, stop1, start2, stop2, withinBounds)]: the linear
    re-mapping; the result is constrained to the target range only when
    [withinBounds] is passed and true. *)
Definition map (n start1 stop1 start2 stop2 : R) (withinBounds : bool) : R :=
  let newval := (n - start1) / (stop1 - start1) * (stop2 - start2) + start2 in
  if withinBounds then
    if Rlt_dec start2 stop2 then constrain newval start2 stop2
    else constrain newval stop2 start2
  else newval.

(** The arithmetic of the vector methods, on values. *)
Definition add_v (a b : Vector) : Vector :=
  createVector (x a + x b) (y a + y b) (z a + z b).

Definition div_v (a : Vector) (n : R) : Vector :=
  if Req_dec_T n 0 then a
  else createVector (x a / n) (y a / n) (z a / n).

Definition mag (a : Vector) : R :=
  sqrt (x a * x a + y a * y a + z a * z a).

Definition sub_v (a b : Vector) : Vector :=
  createVector (x a - x b) (y a - y b) (z a - z b).

(** [this.dist(v)] is v.copy().sub(this).mag(). *)
Definition dist_v (this v : Vector) : R := mag (sub_v v this).

End p5.

(** One call of the random source: the radius and centre it was asked for
    and the point it returned. *)
Record Sample : Type := mkSample
  { s_radius : R; s_cx : R; s_cy : R; s_point : p5.Vector }.

Record State : Type := mkState
  { heap : list p5.Vector;      (* the p5.Vector objects, by location *)
    seed : nat;                 (* how many random numbers were drawn *)
    sampled : list Sample;      (* the calls of the random source, in order *)
    canvas : list p5.Call }.    (* the calls on the drawing surface, in order *)

(** ** The evaluation monad *)

Definition M (A : Type) : Type := State -> option (A * State).

Definition ret {A : Type} (a : A) : M A := fun st => Some (a, st).

Definition bind {A B : Type} (m : M A) (f : A -> M B) : M B :=
  fun st => match m st with
            | Some (a, st') => f a st'
            | None => None
            end.

Notation "x <- m ;; k" := (bind m (fun x => k))
  (at level 61, m at next level, right associativity).
Notation "m ;;; k" := (bind m (fun _ => k))
  (at level 61, right associativity).

(** Reading the object at a location. *)
Definition deref (l : loc) : M p5.Vector :=
  fun st => match nth_error (heap st) l with
            | Some v => Some (v, st)
            | None => None
            end.

Fixpoint update (h : list p5.Vector) (l : loc) (v : p5.Vector) : list p5.Vector :=
  match h, l with
  | [], _ => []
  | _ :: t, O => v :: t
  | w :: t, S l' => w :: update t l' v
  end.

(** Overwriting the object at a location. *)
Definition assign (l : loc) (v : p5.Vector) : M unit :=
  fun st => match nth_error (heap st) l with
            | Some _ => Some (tt, mkState (update (heap st) l v) (seed st)
                                          (sampled st) (canvas st))
            | None => None
            end.

(** A new object, at the next free location. *)
Definition alloc (v : p5.Vector) : M loc :=
  fun st => Some (length (heap st),
                  mkState (heap st ++ [v]) (seed st) (sampled st) (canvas st)).

(** A call on the drawing surface. *)
Definition draw (c : p5.Call) : M unit :=
  fun st => Some (tt, mkState (heap st) (seed st) (sampled st) (canvas st ++ [c])).

Definition blendMode (m : p5.BlendMode) : M unit := draw (p5.blendMode_ m).
Definition fill (c : p5.Color) : M unit := draw (p5.fill_ c).
Definition noFill : M unit := draw p5.noFill_.
Definition circle (cx cy d : R) : M unit := draw (p5.circle_ cx cy d).
Definition stroke (c : p5.Color) : M unit := draw (p5.stroke_ c).
Definition strokeWeight (w : R) : M unit := draw (p5.strokeWeight_ w).
Definition line (x1 y1 x2 y2 : R) : M unit := draw (p5.line_ x1 y1 x2 y2).

(** Field reads [v.x] and [v.y] of a vector variable. *)
Definition get_x (l : loc) : M R := v <- deref l ;; ret (p5.x v).
Definition get_y (l : loc) : M R := v <- deref l ;; ret (p5.y v).

(** [this.add(v)]: adds [v] into the receiver and returns the receiver. *)
Definition Vector_add (this v : loc) : M loc :=
  a <- deref this ;; b <- deref v ;;
  assign this (p5.add_v a b) ;;; ret this.

(** [this.div(n)]: divides the receiver in place and returns it. *)
Definition Vector_div (this : loc) (n : R) : M loc :=
  a <- deref this ;;
  assign this (p5.div_v a n) ;;; ret this.

(** [this.dist(v)]: reads both vectors; the copy it works on is dropped. *)
Definition Vector_dist (this v : loc) : M R :=
  a <- deref this ;; b <- deref v ;; ret (p5.dist_v a b).

(** ** The sketch *)

Module Vec4.
(** The colour record of the sketch: fields [a], [b], [c], [d]. *)
Record t : Type := mk { a : R; b : R; c : R; d : R }.
End Vec4.

Record CosmicSphere : Type := mkCosmicSphere
  { size : R; pos : loc; col : Vec4.t; iterations : Z }.

(** The constructor stores its four arguments. *)
Definition constructor (size : R) (pos : loc) (col : Vec4.t) (iterations : Z)
  : M CosmicSphere :=
  ret (mkCosmicSphere size pos col iterations).

(** The point at angle [theta] of the circle of radius [r] about [(cx, cy)]. *)
Definition edgePoint (r cx cy theta : R) : p5.Vector :=
  p5.createVector (cx + r * cos theta) (cy + r * sin theta) 0.

(** The two factors of a chord's opacity, as [drawSphere] computes them. *)
Definition aLineLen (size lenLine : R) : R :=
  p5.map lenLine 0 (size * 2) 1 0.3 true.

Definition aLight (dLight : R) : R :=
  p5.map dLight 600 1200 0 1.0 false.

(** [for (var i = 0; i < n; i++) body], for a body that does not use [i]:
    the body runs [n] times, and not at all when [n <= 0]. *)
Fixpoint repeat_body (n : nat) (body : M unit) : M unit :=
  match n with
  | O => ret tt
  | S k => body ;;; repeat_body k body
  end.

Section Sketch.

(** The injected random source: the angle of the [n]-th random draw. *)
Variable random : nat -> R.

(** The global [lightSource], a p5.Vector. *)
Variable lightSource : loc.

(** Modelled from the spec: [randomPointOnCircleEdge] is not in the source
    file.  The spec has it produce a point on the boundary of the circle of
    the given radius and centre, at an angle taken from the random source;
    the point is a new vector.  Each call is noted in [sampled]. *)
Definition randomPointOnCircleEdge (r cx cy : R) : M loc :=
  fun st =>
    let p := edgePoint r cx cy (random (seed st)) in
    alloc p (mkState (heap st) (S (seed st))
                     (sampled st ++ [mkSample r cx cy p]) (canvas st)).

(** The body of the loop of [drawSphere]. *)
Definition chord (this : CosmicSphere) : M unit :=
  px <- get_x (pos this) ;; py <- get_y (pos this) ;;
  p1 <- randomPointOnCircleEdge (size this) (px * 2) (py * 2) ;;
  px' <- get_x (pos this) ;; py' <- get_y (pos this) ;;
  p2 <- randomPointOnCircleEdge (size this) (px' * 2) (py' * 2) ;;
  lenLine <- Vector_dist p1 p2 ;;
  let aLineLen := aLineLen (size this) lenLine in
  midPoint <- (s <- Vector_add p1 p2 ;; Vector_div s 2) ;;
  dLight <- Vector_dist midPoint lightSource ;;
  let aLight := aLight dLight in
  let alpha_1 := aLight * aLineLen in
  let baseColor :=
    p5.color (Vec4.a (col this))
             (Vec4.b (col this) - alpha_1 * Vec4.b (col this))
             (Vec4.c (col this))
             (alpha_1 * Vec4.d (col this)) in
  stroke baseColor ;;;
  strokeWeight 1.0 ;;;
  x1 <- get_x p1 ;; y1 <- get_y p1 ;;
  x2 <- get_x p2 ;; y2 <- get_y p2 ;;
  line x1 y1 x2 y2.

Definition drawSphere (this : CosmicSphere) : M unit :=
  blendMode p5.BLEND ;;;
  fill (p5.color 0 0 0 255) ;;;
  (cx <- get_x (pos this) ;; cy <- get_y (pos this) ;;
   circle cx cy (size this * 2)) ;;;
  blendMode p5.ADD ;;;
  noFill ;;;
  repeat_body (Z.to_nat (iterations this)) (chord this).

End Sketch.

(** ** What one chord amounts to

    The values one loop iteration computes, as functions of the sphere's
    radius [sz], the centre vector [P], the colour [c], the light position [L]
    and the two angles [t1], [t2] the random source hands out. *)

Section OneChord.

Variables (sz : R) (P : p5.Vector) (c : Vec4.t) (L : p5.Vector) (t1 t2 : R).

Definition sample1 : p5.Vector := edgePoint sz (p5.x P * 2) (p5.y P * 2) t1.
Definition sample2 : p5.Vector := edgePoint sz (p5.x P * 2) (p5.y P * 2) t2.

Definition chord_lenLine : R := p5.dist_v sample1 sample2.

Definition chord_midPoint : p5.Vector := p5.div_v (p5.add_v sample1 sample2) 2.

Definition chord_dLight : R := p5.dist_v chord_midPoint L.

Definition chord_alpha : R := aLight chord_dLight * aLineLen sz chord_lenLine.

Definition chord_color : p5.Color :=
  p5.color (Vec4.a c) (Vec4.b c - chord_alpha * Vec4.b c)
           (Vec4.c c) (chord_alpha * Vec4.d c).

(** The surface calls of the iteration.  The line starts at what the
    variable [p1] holds when [line] is called: [add] and [div] have by then
    turned that vector into the midpoint. *)
Definition chord_calls : list p5.Call :=
  [ p5.stroke_ chord_color;
    p5.strokeWeight_ 1.0;
    p5.line_ (p5.x chord_midPoint) (p5.y chord_midPoint)
             (p5.x sample2) (p5.y sample2) ].

Definition chord_samples : list Sample :=
  [ mkSample sz (p5.x P * 2) (p5.y P * 2) sample1;
    mkSample sz (p5.x P * 2) (p5.y P * 2) sample2 ].

(** The two vectors the iteration leaves on the heap. *)
Definition chord_heap : list p5.Vector := [ chord_midPoint; sample2 ].

End OneChord.

(** The calls that open [drawSphere]: the occluding disc. *)
Definition base_calls (sz : R) (P : p5.Vector) : list p5.Call :=
  [ p5.blendMode_ p5.BLEND;
    p5.fill_ (p5.color 0 0 0 255);
    p5.circle_ (p5.x P) (p5.y P) (sz * 2);
    p5.blendMode_ p5.ADD;
    p5.noFill_ ].

(** The [k]-th chord of a run that starts with [s] random numbers drawn. *)
Definition nth_calls (random : nat -> R) (s : nat) (sz : R) (P : p5.Vector)
           (c : Vec4.t) (L : p5.Vector) (k : nat) : list p5.Call :=
  chord_calls sz P c L (random (s + 2 * k)%nat) (random (s + 2 * k + 1)%nat).

Definition nth_samples (random : nat -> R) (s : nat) (sz : R) (P : p5.Vector)
           (k : nat) : list Sample :=
  chord_samples sz P (random (s + 2 * k)%nat) (random (s + 2 * k + 1)%nat).

Definition nth_heap (random : nat -> R) (s : nat) (sz : R) (P : p5.Vector)
           (k : nat) : list p5.Vector :=
  chord_heap sz P (random (s + 2 * k)%nat) (random (s + 2 * k + 1)%nat).

(** The light distance, combined opacity and stroke colour of the [k]-th
    chord. *)
Definition nth_dLight (random : nat -> R) (s : nat) (sz : R)
           (P L : p5.Vector) (k : nat) : R :=
  chord_dLight sz P L (random (s + 2 * k)%nat) (random (s + 2 * k + 1)%nat).

Definition nth_alpha (random : nat -> R) (s : nat) (sz : R)
           (P L : p5.Vector) (k : nat) : R :=
  chord_alpha sz P L (random (s + 2 * k)%nat) (random (s + 2 * k + 1)%nat).

Definition nth_color (random : nat -> R) (s : nat) (sz : R) (P : p5.Vector)
           (c : Vec4.t) (L : p5.Vector) (k : nat) : p5.Color :=
  chord_color sz P c L (random (s + 2 * k)%nat) (random (s + 2 * k + 1)%nat).

(** A point lies on the circle of radius [r] about [(cx, cy)]. *)
Definition on_circle (r cx cy : R) (p : p5.Vector) : Prop :=
  (p5.x p - cx) * (p5.x p - cx) + (p5.y p - cy) * (p5.y p - cy) = r * r.

Definition is_line (c : p5.Call) : bool :=
  match c with p5.line_ _ _ _ _ => true | _ => false end.

Definition is_circle (c : p5.Call) : bool :=
  match c with p5.circle_ _ _ _ => true | _ => false end.

(** The spec's reading of the length factor: the chord length is clamped to
    [0, 2 * radius] and then mapped linearly onto [1.0, 0.3]. *)
Definition lengthAlpha_spec (radius chordLength : R) : R :=
  let l := Rmax 0 (Rmin chordLength (2 * radius)) in
  1 + l / (2 * radius) * (0.3 - 1).

(** The spec's reading of the light factor: the linear map of the distance
    from [600, 1200] onto [0, 1], clamped to [0, 1]. *)
Definition lightAlpha_spec (lightDistance : R) : R :=
  Rmax 0 (Rmin ((lightDistance - 600) / (1200 - 600)) 1).

(** The state [n] chords after [st]. *)
Definition after_chords (random : nat -> R) (this : CosmicSphere)
           (P L : p5.Vector) (n : nat) (st : State) : State :=
  mkState
    (heap st ++ flat_map (nth_heap random (seed st) (size this) P) (seq 0 n))
    (seed st + 2 * n)
    (sampled st ++
       flat_map (nth_samples random (seed st) (size this) P) (seq 0 n))
    (canvas st ++
       flat_map (nth_calls random (seed st) (size this) P (col this) L)
                (seq 0 n)).

(** The state [drawSphere] leaves: the disc, then the chords. *)
Definition after_drawSphere (random : nat -> R) (this : CosmicSphere)
           (P L : p5.Vector) (st : State) : State :=
  let n := Z.to_nat (iterations this) in
  mkState
    (heap st ++ flat_map (nth_heap random (seed st) (size this) P) (seq 0 n))
    (seed st + 2 * n)
    (sampled st ++
       flat_map (nth_samples random (seed st) (size this) P) (seq 0 n))
    (canvas st ++ base_calls (size this) P ++
       flat_map (nth_calls random (seed st) (size this) P (col this) L)
                (seq 0 n)).

Definition is_stroke (c : p5.Call) : bool :=
  match c with p5.stroke_ _ => true | _ => false end.

(** ** The loop, with its counter

    [for (var i = 0; i < n; i++) body] as it is written: the test [i < n]
    before every round, the increment after it.  [fuel] bounds the number of
    tests; [None] is also the answer of a loop that runs out of it. *)
Fixpoint for_loop (fuel : nat) (i n : Z) (body : M unit) : M unit :=
  match fuel with
  | O => fun _ => None
  | S fuel' =>
      if (i <? n)%Z then body ;;; for_loop fuel' (i + 1) n body
      else ret tt
  end.

(** The segments that join, for each pair of consecutive samples, the
    midpoint of the pair to its second point. *)
Fixpoint midpoint_lines (l : list Sample) : list p5.Call :=
  match l with
  | s1 :: s2 :: rest =>
      p5.line_ ((p5.x (s_point s1) + p5.x (s_point s2)) / 2)
               ((p5.y (s_point s1) + p5.y (s_point s2)) / 2)
               (p5.x (s_point s2)) (p5.y (s_point s2))
      :: midpoint_lines rest
  | _ => []
  end.

(** The calls that set the blend mode or the fill of the surface. *)
Definition is_setting (c : p5.Call) : bool :=
  match c with
  | p5.blendMode_ _ | p5.fill_ _ | p5.noFill_ => true
  | _ => false
  end.

(** The squared length of a segment, and the squared distance of a point to
    a centre. *)
Definition sq_dist (x1 y1 x2 y2 : R) : R :=
  (x2 - x1) * (x2 - x1) + (y2 - y1) * (y2 - y1).

(** A [line] call has both ends in the closed disc of radius [r] about
    [(cx, cy)], the second one on its boundary. *)
Definition segment_in_disc (r cx cy : R) (c : p5.Call) : Prop :=
  match c with
  | p5.line_ x1 y1 x2 y2 =>
      sq_dist cx cy x1 y1 <= r * r /\ sq_dist cx cy x2 y2 = r * r
  | _ => True
  end.

(** A [line] call draws a segment no longer than [r]. *)
Definition segment_at_most (r : R) (c : p5.Call) : Prop :=
  match c with
  | p5.line_ x1 y1 x2 y2 => sq_dist x1 y1 x2 y2 <= r * r
  | _ => True
  end.

(** ** A small scene

    The sphere of the spec's end-to-end scenario with a single chord: radius
    100, centre (0, 0), colour (255, 0, 255, 200), and the light at (0, 0).
    The random source hands out the angles 0 and pi, so the two sampled
    points are (100, 0) and (-100, 0). *)

Definition scene_random (n : nat) : R :=
  match n with O => 0 | S _ => PI end.

Definition scene_origin : p5.Vector := p5.createVector 0 0 0.

(** Location 0 holds the sphere's centre, location 1 the light. *)
Definition scene_state : State :=
  mkState [scene_origin; scene_origin] 0 [] [].

Definition scene_light : loc := 1%nat.

Definition scene_sphere : CosmicSphere :=
  mkCosmicSphere 100 0%nat (Vec4.mk 255 0 255 200) 1.

(** ** Heap lemmas *)

Lemma nth_error_app_old (h t : list p5.Vector) (l : loc) (v : p5.Vector) :
  nth_error h l = Some v -> nth_error (h ++ t) l = Some v.
Proof.
  intros H. rewrite nth_error_app1; [exact H|].
  apply nth_error_Some. rewrite H. discriminate.
Qed.

Lemma nth_error_app_new (h t : list p5.Vector) (v : p5.Vector) :
  nth_error (h ++ v :: t) (length h) = Some v.
Proof.
  induction h as [|w h IH]; simpl; [reflexivity | exact IH].
Qed.

Lemma nth_error_app_new2 (h t : list p5.Vector) (v w : p5.Vector) :
  nth_error (h ++ v :: w :: t) (S (length h)) = Some w.
Proof.
  induction h as [|u h IH]; simpl; [reflexivity | exact IH].
Qed.

Lemma update_app_new (h t : list p5.Vector) (v w : p5.Vector) :
  update (h ++ v :: t) (length h) w = h ++ w :: t.
Proof.
  induction h as [|u h IH]; simpl; [reflexivity | now rewrite IH].
Qed.

Lemma length_snoc (h : list p5.Vector) (v : p5.Vector) :
  length (h ++ [v]) = S (length h).
Proof. rewrite length_app. simpl. lia. Qed.

Lemma snoc_snoc (h : list p5.Vector) (v w : p5.Vector) :
  (h ++ [v]) ++ [w] = h ++ [v; w].
Proof. now rewrite <- app_assoc. Qed.

Ltac step :=
  cbv beta iota zeta delta
    [bind get_x get_y deref randomPointOnCircleEdge alloc Vector_dist
     Vector_add Vector_div assign ret stroke strokeWeight line draw circle
     fill noFill blendMode];
  cbn [heap seed sampled canvas].

(** ** One iteration of the loop *)

Lemma chord_run (random : nat -> R) (lightSource : loc) (this : CosmicSphere)
      (st : State) (P L : p5.Vector) :
  nth_error (heap st) (pos this) = Some P ->
  nth_error (heap st) lightSource = Some L ->
  chord random lightSource this st =
  Some (tt, mkState
              (heap st ++ chord_heap (size this) P
                            (random (seed st)) (random (S (seed st))))
              (S (S (seed st)))
              (sampled st ++ chord_samples (size this) P
                               (random (seed st)) (random (S (seed st))))
              (canvas st ++ chord_calls (size this) P (col this) L
                              (random (seed st)) (random (S (seed st))))).
Proof.
  intros HP HL.
  pose proof (fun t => nth_error_app_old _ t _ _ HP) as HP1.
  pose proof (fun t => nth_error_app_old _ t _ _ HL) as HL1.
  unfold chord.
  repeat (step;
          first [ rewrite HP | rewrite HP1 | rewrite HL1
                | rewrite length_snoc | rewrite snoc_snoc
                | rewrite (nth_error_app_new (heap st) [_])
                | rewrite (nth_error_app_new2 (heap st) [])
                | rewrite (update_app_new (heap st) [_]) ]).
  step.
  rewrite <- !app_assoc. reflexivity.
Qed.

(** ** The loop and the whole routine *)

Lemma flat_map_seq_shift {A : Type} (f : nat -> list A) (a n : nat) :
  flat_map f (seq (S a) n) = flat_map (fun k => f (S k)) (seq a n).
Proof.
  revert a. induction n as [|n IH]; intros a; simpl; [reflexivity|].
  now rewrite IH.
Qed.

Lemma nth_heap_shift random s sz P k :
  nth_heap random (S (S s)) sz P k = nth_heap random s sz P (S k).
Proof.
  unfold nth_heap. f_equal; f_equal; lia.
Qed.

Lemma nth_samples_shift random s sz P k :
  nth_samples random (S (S s)) sz P k = nth_samples random s sz P (S k).
Proof.
  unfold nth_samples. f_equal; f_equal; lia.
Qed.

Lemma nth_calls_shift random s sz P c L k :
  nth_calls random (S (S s)) sz P c L k = nth_calls random s sz P c L (S k).
Proof.
  unfold nth_calls. f_equal; f_equal; lia.
Qed.

Lemma nth_first random s sz P c L :
  nth_heap random s sz P 0 = chord_heap sz P (random s) (random (S s)) /\
  nth_samples random s sz P 0 = chord_samples sz P (random s) (random (S s)) /\
  nth_calls random s sz P c L 0 =
    chord_calls sz P c L (random s) (random (S s)).
Proof.
  unfold nth_heap, nth_samples, nth_calls.
  replace (s + 2 * 0)%nat with s by lia.
  replace (s + 1)%nat with (S s) by lia.
  repeat split.
Qed.


Lemma loop_run (random : nat -> R) (lightSource : loc) (this : CosmicSphere)
      (P L : p5.Vector) (n : nat) :
  forall st : State,
    nth_error (heap st) (pos this) = Some P ->
    nth_error (heap st) lightSource = Some L ->
    repeat_body n (chord random lightSource this) st =
    Some (tt, after_chords random this P L n st).
Proof.
  induction n as [|n IH]; intros st HP HL.
  - unfold after_chords. simpl. rewrite !app_nil_r, Nat.add_0_r.
    destruct st; reflexivity.
  - cbn [repeat_body]. unfold bind at 1.
    rewrite (chord_run _ _ _ _ _ _ HP HL).
    rewrite IH by (cbn [heap]; now apply nth_error_app_old).
    unfold after_chords. cbn [heap seed sampled canvas].
    do 2 f_equal.
    destruct (nth_first random (seed st) (size this) P (col this) L)
      as (Hh & Hs & Hc).
    cbn [seq flat_map]. rewrite !flat_map_seq_shift.
    rewrite Hh, Hs, Hc, <- !app_assoc.
    f_equal; [| lia | |]; f_equal; f_equal;
      apply flat_map_ext; intros k;
      [ apply nth_heap_shift | apply nth_samples_shift | apply nth_calls_shift ].
Qed.


Lemma drawSphere_run (random : nat -> R) (lightSource : loc)
      (this : CosmicSphere) (P L : p5.Vector) (st : State) :
  nth_error (heap st) (pos this) = Some P ->
  nth_error (heap st) lightSource = Some L ->
  drawSphere random lightSource this st =
  Some (tt, after_drawSphere random this P L st).
Proof.
  intros HP HL. unfold drawSphere.
  step. rewrite HP. step. rewrite HP. step.
  rewrite (loop_run random lightSource this P L); cbn [heap]; trivial.
  unfold after_chords, after_drawSphere, base_calls.
  cbn [heap seed sampled canvas].
  rewrite <- !app_assoc. reflexivity.
Qed.

(** ** Lists of calls *)

Lemma filter_flat_map {A B : Type} (p : B -> bool) (f : A -> list B)
      (l : list A) :
  filter p (flat_map f l) = flat_map (fun a => filter p (f a)) l.
Proof.
  induction l as [|a l IH]; simpl; [reflexivity|].
  now rewrite filter_app, IH.
Qed.

Lemma flat_map_single {A B : Type} (g : A -> B) (l : list A) :
  flat_map (fun a => [g a]) l = List.map g l.
Proof.
  induction l as [|a l IH]; simpl; [reflexivity | now rewrite IH].
Qed.

Lemma flat_map_none {A B : Type} (l : list A) :
  flat_map (fun _ : A => @nil B) l = [].
Proof.
  induction l as [|a l IH]; simpl; [reflexivity | exact IH].
Qed.

Lemma flat_map_agree {A B : Type} (f g : A -> list B) (l : list A) :
  (forall a, In a l -> f a = g a) -> flat_map f l = flat_map g l.
Proof.
  induction l as [|a l IH]; intros H; simpl; [reflexivity|].
  rewrite (H a) by (left; reflexivity).
  rewrite IH; [reflexivity|]. intros b Hb. apply H. now right.
Qed.

(** ** The two opacity factors *)

Lemma aLight_eq (d : R) : aLight d = (d - 600) / 600.
Proof. unfold aLight, p5.map. lra. Qed.

Lemma constrain_bounds (n low high : R) :
  low <= high -> low <= p5.constrain n low high <= high.
Proof.
  intros H. unfold p5.constrain, Rmax, Rmin.
  repeat destruct Rle_dec; lra.
Qed.

Lemma constrain_inside (n low high : R) :
  low <= n <= high -> p5.constrain n low high = n.
Proof.
  intros H. unfold p5.constrain, Rmax, Rmin.
  repeat destruct Rle_dec; lra.
Qed.

Lemma aLineLen_eq (sz len : R) :
  aLineLen sz len = p5.constrain (1 - len / (sz * 2) * 0.7) 0.3 1.
Proof.
  unfold aLineLen, p5.map.
  destruct (Rlt_dec 1 0.3) as [H|_]; [lra|].
  f_equal. rewrite !Rminus_0_r.
  generalize (len / (sz * 2)). intros q. lra.
Qed.

Lemma aLineLen_bounds (sz len : R) : 0.3 <= aLineLen sz len <= 1.
Proof. rewrite aLineLen_eq. apply constrain_bounds. lra. Qed.

Lemma edgePoint_on_circle (r cx cy theta : R) :
  on_circle r cx cy (edgePoint r cx cy theta).
Proof.
  unfold on_circle, edgePoint. cbn [p5.x p5.y].
  pose proof (sin2_cos2 theta) as H. unfold Rsqr in H. nra.
Qed.

(** ** The small scene, evaluated *)

Lemma scene_sample1 :
  sample1 100 scene_origin 0 = p5.createVector 100 0 0.
Proof.
  unfold sample1, edgePoint, scene_origin. cbn [p5.x p5.y].
  rewrite cos_0, sin_0. f_equal; lra.
Qed.

Lemma scene_sample2 :
  sample2 100 scene_origin PI = p5.createVector (-100) 0 0.
Proof.
  unfold sample2, edgePoint, scene_origin. cbn [p5.x p5.y].
  rewrite cos_PI, sin_PI. f_equal; lra.
Qed.

Lemma scene_midPoint :
  chord_midPoint 100 scene_origin 0 PI = p5.createVector 0 0 0.
Proof.
  unfold chord_midPoint. rewrite scene_sample1, scene_sample2.
  unfold p5.div_v, p5.add_v. cbn [p5.x p5.y p5.z].
  destruct (Req_dec_T 2 0) as [H|_]; [lra|]. f_equal; lra.
Qed.

Lemma scene_lenLine : chord_lenLine 100 scene_origin 0 PI = 200.
Proof.
  unfold chord_lenLine. rewrite scene_sample1, scene_sample2.
  unfold p5.dist_v, p5.mag, p5.sub_v. cbn [p5.x p5.y p5.z].
  replace ((-100 - 100) * (-100 - 100) + (0 - 0) * (0 - 0) + (0 - 0) * (0 - 0))
    with (200 * 200) by lra.
  apply sqrt_square. lra.
Qed.

Lemma scene_dLight : chord_dLight 100 scene_origin scene_origin 0 PI = 0.
Proof.
  unfold chord_dLight. rewrite scene_midPoint.
  unfold p5.dist_v, p5.mag, p5.sub_v, scene_origin. cbn [p5.x p5.y p5.z].
  replace ((0 - 0) * (0 - 0) + (0 - 0) * (0 - 0) + (0 - 0) * (0 - 0))
    with 0 by lra.
  apply sqrt_0.
Qed.

Lemma scene_alpha :
  chord_alpha 100 scene_origin scene_origin 0 PI = - 0.3.
Proof.
  unfold chord_alpha. rewrite scene_dLight, scene_lenLine.
  rewrite aLight_eq, aLineLen_eq, constrain_inside; lra.
Qed.

Lemma scene_color :
  chord_color 100 scene_origin (Vec4.mk 255 0 255 200) scene_origin 0 PI =
  p5.color 255 0 255 (-60).
Proof.
  unfold chord_color. rewrite scene_alpha. cbn [Vec4.a Vec4.b Vec4.c Vec4.d].
  f_equal; lra.
Qed.

Lemma scene_run :
  drawSphere scene_random scene_light scene_sphere scene_state =
  Some (tt,
        mkState
          [ scene_origin; scene_origin;
            p5.createVector 0 0 0; p5.createVector (-100) 0 0 ]
          2
          [ mkSample 100 0 0 (p5.createVector 100 0 0);
            mkSample 100 0 0 (p5.createVector (-100) 0 0) ]
          [ p5.blendMode_ p5.BLEND;
            p5.fill_ (p5.color 0 0 0 255);
            p5.circle_ 0 0 200;
            p5.blendMode_ p5.ADD;
            p5.noFill_;
            p5.stroke_ (p5.color 255 0 255 (-60));
            p5.strokeWeight_ 1;
            p5.line_ 0 0 (-100) 0 ]).
Proof.
  rewrite (drawSphere_run _ _ _ scene_origin scene_origin)
    by reflexivity.
  unfold after_drawSphere, nth_heap, nth_samples, nth_calls,
    chord_heap, chord_samples, chord_calls, base_calls.
  change (Z.to_nat (iterations scene_sphere)) with 1%nat.
  cbn [seq flat_map app heap seed sampled canvas scene_state scene_sphere
       size col Nat.add Nat.mul scene_random].
  rewrite scene_sample1, scene_sample2, scene_midPoint, scene_color.
  cbn [p5.x p5.y scene_origin].
  replace (0 * 2) with 0 by lra.
  replace (100 * 2) with 200 by lra.
  replace 1.0 with 1 by lra.
  reflexivity.
Qed.

(** ** The calls of the chords, by kind *)

Lemma strokes_of_chords random s sz P c L (n : nat) :
  filter is_stroke (flat_map (nth_calls random s sz P c L) (seq 0 n)) =
  List.map (fun k => p5.stroke_ (nth_color random s sz P c L k)) (seq 0 n).
Proof.
  rewrite filter_flat_map, <- flat_map_single.
  apply flat_map_ext. intros k. reflexivity.
Qed.

Lemma lines_of_chords random s sz P c L (n : nat) :
  length (filter is_line (flat_map (nth_calls random s sz P c L) (seq 0 n))) = n.
Proof.
  rewrite filter_flat_map.
  rewrite (flat_map_constant_length (c := 1%nat)).
  - rewrite length_seq. lia.
  - intros k _. reflexivity.
Qed.

Lemma circles_of_chords random s sz P c L (n : nat) :
  filter is_circle (flat_map (nth_calls random s sz P c L) (seq 0 n)) = [].
Proof.
  rewrite filter_flat_map.
  rewrite (flat_map_ext _ (fun _ => [])); [apply flat_map_none|].
  intros k. reflexivity.
Qed.

Lemma nth_error_map_seq {A : Type} (f : nat -> A) (n k : nat) :
  (k < n)%nat -> nth_error (List.map f (seq 0 n)) k = Some (f k).
Proof.
  intros H. rewrite nth_error_map, nth_error_seq.
  destruct (Nat.ltb_spec k n) as [_|H']; [reflexivity | lia].
Qed.

Lemma chord_alpha_band sz P L t1 t2 :
  600 <= chord_dLight sz P L t1 t2 <= 1200 ->
  0 <= chord_alpha sz P L t1 t2 <= 1.
Proof.
  intros H. unfold chord_alpha. rewrite aLight_eq.
  pose proof (aLineLen_bounds sz (chord_lenLine sz P t1 t2)) as B.
  nra.
Qed.

(** * The claims *)

(** C1: the segment handed to [line] should run from the sampled point p1 to
    the sampled point p2.  In the small scene the random source returns
    (100, 0) and (-100, 0), yet the one segment drawn is
    line(0, 0, -100, 0): [p1.add(p2).div(2)] has overwritten the vector that
    [p1] names with the midpoint before [line] reads [p1.x] and [p1.y]. *)
Theorem drawSphere_line_starts_at_midpoint :
  exists st' : State,
    drawSphere scene_random scene_light scene_sphere scene_state
      = Some (tt, st') /\
    List.map s_point (sampled st')
      = [ p5.createVector 100 0 0; p5.createVector (-100) 0 0 ] /\
    filter is_line (canvas st') = [ p5.line_ 0 0 (-100) 0 ] /\
    p5.line_ 0 0 (-100) 0 <> p5.line_ 100 0 (-100) 0.
Proof.
  eexists. split; [apply scene_run|].
  cbn [sampled canvas List.map s_point filter is_line].
  repeat split.
  intros H. injection H as H. lra.
Qed.

(** C2, as the spec states it, fails: in the small scene the midpoint of the
    chord is at distance 0 from the light, and the light factor
    [map(dLight, 600, 1200, 0, 1.0)] is -1, where the clamped map of the spec
    gives 0. *)
Lemma aLight_below_range_is_negative :
  chord_dLight 100 scene_origin scene_origin 0 PI = 0 /\
  aLight (chord_dLight 100 scene_origin scene_origin 0 PI) = -1 /\
  lightAlpha_spec (chord_dLight 100 scene_origin scene_origin 0 PI) = 0.
Proof.
  rewrite scene_dLight. split; [reflexivity|]. split.
  - rewrite aLight_eq. lra.
  - unfold lightAlpha_spec, Rmax, Rmin. repeat destruct Rle_dec; lra.
Qed.

(** C2, amended: the light factor is the linear map of the distance from
    [600, 1200] onto [0, 1] without clamping.  It is (d - 600) / 600 at every
    distance d: 0 at 600, 1 at 1200, equal to the clamped map exactly on
    [600, 1200], negative below 600 and above 1 beyond 1200. *)
Theorem aLight_linear_unclamped (d : R) :
  aLight d = (d - 600) / 600 /\
  aLight 600 = 0 /\
  aLight 1200 = 1 /\
  (aLight d = lightAlpha_spec d <-> 600 <= d <= 1200) /\
  (aLight d < 0 <-> d < 600) /\
  (1 < aLight d <-> 1200 < d).
Proof.
  rewrite !aLight_eq. unfold lightAlpha_spec, Rmax, Rmin.
  repeat split; try lra; repeat destruct Rle_dec; try lra.
Qed.

(** C3, as the spec states it, fails: in the small scene the combined
    opacity of the chord is -0.3 and the stroke colour passed to the surface
    has alpha -60, below 0, for a base alpha of 200. *)
Lemma scene_stroke_alpha_negative :
  exists st' : State,
    drawSphere scene_random scene_light scene_sphere scene_state
      = Some (tt, st') /\
    chord_alpha 100 scene_origin scene_origin 0 PI = - 0.3 /\
    filter is_stroke (canvas st') = [ p5.stroke_ (p5.color 255 0 255 (-60)) ] /\
    p5.alpha (p5.color 255 0 255 (-60)) < 0.
Proof.
  eexists. split; [apply scene_run|].
  split; [apply scene_alpha|].
  cbn [canvas filter is_stroke p5.alpha].
  split; [reflexivity | lra].
Qed.

(** C3, amended: for every chord of a render call whose midpoint lies at a
    distance between 600 and 1200 from the light, the combined opacity
    aLight * aLineLen lies in [0, 1], and the alpha of the stroke colour,
    base alpha times combined opacity, lies between 0 and the base alpha
    (radius positive, base alpha not negative). *)
Theorem combinedAlpha_in_unit_interval
        (random : nat -> R) (lightSource : loc) (this : CosmicSphere)
        (P L : p5.Vector) (st : State) (k : nat) :
  nth_error (heap st) (pos this) = Some P ->
  nth_error (heap st) lightSource = Some L ->
  0 < size this ->
  0 <= Vec4.d (col this) ->
  (k < Z.to_nat (iterations this))%nat ->
  600 <= nth_dLight random (seed st) (size this) P L k <= 1200 ->
  exists (st' : State) (calls : list p5.Call) (c : p5.Color),
    drawSphere random lightSource this st = Some (tt, st') /\
    canvas st' = canvas st ++ calls /\
    nth_error (filter is_stroke calls) k = Some (p5.stroke_ c) /\
    p5.alpha c
      = nth_alpha random (seed st) (size this) P L k * Vec4.d (col this) /\
    0 <= nth_alpha random (seed st) (size this) P L k <= 1 /\
    0 <= p5.alpha c <= Vec4.d (col this).
Proof.
  intros HP HL Hsz Hd Hk Hband.
  exists (after_drawSphere random this P L st).
  eexists. exists (nth_color random (seed st) (size this) P (col this) L k).
  split; [now apply drawSphere_run|].
  split; [reflexivity|].
  split.
  { rewrite filter_app, strokes_of_chords. cbn [base_calls filter is_stroke app].
    now apply (nth_error_map_seq
                 (fun j => p5.stroke_
                   (nth_color random (seed st) (size this) P (col this) L j))). }
  pose proof (chord_alpha_band _ _ _ _ _ Hband) as B.
  unfold nth_color, chord_color, nth_alpha in *. cbn [p5.alpha].
  repeat split; try lra; nra.
Qed.

(** A chord of the small scene moved 900 units away from the light witnesses
    the amended C3. *)
Lemma combinedAlpha_in_unit_interval_witness :
  exists (st' : State) (calls : list p5.Call) (c : p5.Color),
    drawSphere scene_random scene_light scene_sphere
      (mkState [scene_origin; p5.createVector 900 0 0] 0 [] [])
      = Some (tt, st') /\
    canvas st' = [] ++ calls /\
    nth_error (filter is_stroke calls) 0 = Some (p5.stroke_ c) /\
    p5.alpha c
      = nth_alpha scene_random 0 100 scene_origin (p5.createVector 900 0 0) 0
        * 200 /\
    0 <= nth_alpha scene_random 0 100 scene_origin (p5.createVector 900 0 0) 0
      <= 1 /\
    0 <= p5.alpha c <= 200.
Proof.
  apply (combinedAlpha_in_unit_interval scene_random scene_light scene_sphere
           scene_origin (p5.createVector 900 0 0)
           (mkState [scene_origin; p5.createVector 900 0 0] 0 [] []) 0%nat).
  - reflexivity.
  - reflexivity.
  - cbn [scene_sphere size]. lra.
  - cbn [scene_sphere col Vec4.d]. lra.
  - cbn. lia.
  - unfold nth_dLight. cbn [seed scene_sphere size Nat.add Nat.mul scene_random].
    unfold chord_dLight. rewrite scene_midPoint.
    unfold p5.dist_v, p5.mag, p5.sub_v. cbn [p5.x p5.y p5.z].
    replace ((900 - 0) * (900 - 0) + (0 - 0) * (0 - 0) + (0 - 0) * (0 - 0))
      with (900 * 900) by lra.
    rewrite sqrt_square; lra.
Defined.

(** C4: with a non-negative chord count, one render call issues the five
    calls of the base disc (the black fill and the one circle) and then the
    calls of the chords, among which there is no circle and exactly
    [iterations] lines; with a chord count of 0 nothing follows the disc. *)
Theorem drawSphere_one_circle_then_lines
        (random : nat -> R) (lightSource : loc) (this : CosmicSphere)
        (P L : p5.Vector) (st : State) :
  nth_error (heap st) (pos this) = Some P ->
  nth_error (heap st) lightSource = Some L ->
  (0 <= iterations this)%Z ->
  exists (st' : State) (chords : list p5.Call),
    drawSphere random lightSource this st = Some (tt, st') /\
    canvas st' = canvas st ++ base_calls (size this) P ++ chords /\
    filter is_circle (base_calls (size this) P ++ chords)
      = [ p5.circle_ (p5.x P) (p5.y P) (size this * 2) ] /\
    filter is_line (base_calls (size this) P) = [] /\
    filter is_circle chords = [] /\
    Z.of_nat (length (filter is_line chords)) = iterations this /\
    (iterations this = 0%Z -> chords = []).
Proof.
  intros HP HL Hn.
  exists (after_drawSphere random this P L st). eexists.
  split; [now apply drawSphere_run|].
  split; [reflexivity|].
  rewrite filter_app, circles_of_chords, lines_of_chords.
  repeat split.
  - lia.
  - intros H0. rewrite H0. reflexivity.
Qed.

(** The small scene witnesses C4. *)
Lemma drawSphere_one_circle_then_lines_witness :
  exists (st' : State) (chords : list p5.Call),
    drawSphere scene_random scene_light scene_sphere scene_state
      = Some (tt, st') /\
    canvas st' = [] ++ base_calls 100 scene_origin ++ chords /\
    filter is_circle (base_calls 100 scene_origin ++ chords)
      = [ p5.circle_ 0 0 (100 * 2) ] /\
    filter is_line (base_calls 100 scene_origin) = [] /\
    filter is_circle chords = [] /\
    Z.of_nat (length (filter is_line chords)) = 1%Z /\
    (1%Z = 0%Z -> chords = []).
Proof.
  apply (drawSphere_one_circle_then_lines scene_random scene_light
           scene_sphere scene_origin scene_origin scene_state).
  - reflexivity.
  - reflexivity.
  - cbn. lia.
Defined.

(** C5: the stroke colours passed to the surface are, chord by chord,
    (col.a, col.b * (1 - alpha), col.c, col.d * alpha), where alpha is the
    combined opacity of that chord. *)
Theorem drawSphere_stroke_colors
        (random : nat -> R) (lightSource : loc) (this : CosmicSphere)
        (P L : p5.Vector) (st : State) :
  nth_error (heap st) (pos this) = Some P ->
  nth_error (heap st) lightSource = Some L ->
  exists (st' : State) (calls : list p5.Call),
    drawSphere random lightSource this st = Some (tt, st') /\
    canvas st' = canvas st ++ calls /\
    filter is_stroke calls =
    List.map
      (fun k =>
         let combinedAlpha := nth_alpha random (seed st) (size this) P L k in
         p5.stroke_
           (p5.color (Vec4.a (col this))
                     (Vec4.b (col this) * (1 - combinedAlpha))
                     (Vec4.c (col this))
                     (Vec4.d (col this) * combinedAlpha)))
      (seq 0 (Z.to_nat (iterations this))).
Proof.
  intros HP HL.
  exists (after_drawSphere random this P L st). eexists.
  split; [now apply drawSphere_run|].
  split; [reflexivity|].
  rewrite filter_app, strokes_of_chords. cbn [base_calls filter is_stroke app].
  apply map_ext. intros k.
  unfold nth_color, chord_color, nth_alpha. cbv zeta.
  do 2 f_equal; ring.
Qed.

(** The small scene witnesses C5. *)
Lemma drawSphere_stroke_colors_witness :
  exists (st' : State) (calls : list p5.Call),
    drawSphere scene_random scene_light scene_sphere scene_state
      = Some (tt, st') /\
    canvas st' = [] ++ calls /\
    filter is_stroke calls =
    List.map
      (fun k =>
         p5.stroke_
           (p5.color 255
              (0 * (1 - nth_alpha scene_random 0 100 scene_origin
                                  scene_origin k))
              255
              (200 * nth_alpha scene_random 0 100 scene_origin
                               scene_origin k)))
      (seq 0 1).
Proof.
  apply (drawSphere_stroke_colors scene_random scene_light scene_sphere
           scene_origin scene_origin scene_state); reflexivity.
Defined.

(** C6: for a positive radius the length factor is the linear map of the
    chord length from [0, 2 * radius] onto [1.0, 0.3] with the input clamped
    to the source range; it lies in [0.3, 1.0], is 1.0 for a chord of length
    0 and 0.3 for a chord of length 2 * radius. *)
Theorem aLineLen_clamped_linear (radius chordLength : R) :
  0 < radius ->
  aLineLen radius chordLength = lengthAlpha_spec radius chordLength /\
  0.3 <= aLineLen radius chordLength <= 1.0 /\
  aLineLen radius 0 = 1.0 /\
  aLineLen radius (2 * radius) = 0.3.
Proof.
  intros Hr.
  assert (Hq : forall l, l / (radius * 2) * (radius * 2) = l)
    by (intros l; field; lra).
  split; [|split; [|split]].
  - rewrite aLineLen_eq. unfold lengthAlpha_spec.
    replace (2 * radius) with (radius * 2) by ring.
    pose proof (Hq chordLength) as Hc.
    pose proof (Hq (Rmax 0 (Rmin chordLength (radius * 2)))) as Hm.
    revert Hc Hm.
    generalize (chordLength / (radius * 2)).
    generalize (Rmax 0 (Rmin chordLength (radius * 2)) / (radius * 2)).
    intros qm qc Hc Hm.
    unfold p5.constrain, Rmax, Rmin in *.
    repeat destruct Rle_dec; nra.
  - pose proof (aLineLen_bounds radius chordLength). lra.
  - rewrite aLineLen_eq, constrain_inside; unfold Rdiv; rewrite Rmult_0_l; lra.
  - rewrite aLineLen_eq.
    replace (2 * radius / (radius * 2)) with 1 by (field; lra).
    rewrite constrain_inside; lra.
Qed.

(** A sphere of radius 100 and a chord of length 50 witness C6. *)
Lemma aLineLen_clamped_linear_witness :
  aLineLen 100 50 = lengthAlpha_spec 100 50 /\
  0.3 <= aLineLen 100 50 <= 1.0 /\
  aLineLen 100 0 = 1.0 /\
  aLineLen 100 (2 * 100) = 0.3.
Proof.
  apply (aLineLen_clamped_linear 100 50). lra.
Defined.

(** C7, as the spec states it, fails: the constructor called with radius -1
    and chord count -5 returns a sphere holding these values; nothing is
    rejected. *)
Lemma constructor_accepts_negative_arguments :
  constructor (-1) 0%nat (Vec4.mk 255 0 255 200) (-5) scene_state
  = Some (mkCosmicSphere (-1) 0%nat (Vec4.mk 255 0 255 200) (-5), scene_state) /\
  size (mkCosmicSphere (-1) 0%nat (Vec4.mk 255 0 255 200) (-5)) <= 0 /\
  (iterations (mkCosmicSphere (-1) 0%nat (Vec4.mk 255 0 255 200) (-5)) < 0)%Z.
Proof.
  split; [reflexivity|]. cbn [size iterations]. split; [lra | lia].
Qed.

(** C7, amended: construction never fails and checks nothing.  For every
    radius, centre, colour and chord count, the valid ones included, the
    constructor returns a sphere whose four fields are the four arguments,
    and changes no state. *)
Theorem constructor_total
        (sz : R) (p : loc) (c : Vec4.t) (n : Z) (st : State) :
  exists this : CosmicSphere,
    constructor sz p c n st = Some (this, st) /\
    size this = sz /\ pos this = p /\ col this = c /\ iterations this = n.
Proof.
  eexists. split; [reflexivity|]. repeat split.
Qed.

(** C8: the base circle is drawn at the stored centre (pos.x, pos.y) with
    diameter 2 * size, it is the only circle drawn, and every call of the
    random source asks for the radius [size] and the centre
    (pos.x * 2, pos.y * 2) and returns a point on that circle; there are two
    such calls per chord. *)
Theorem drawSphere_centres
        (random : nat -> R) (lightSource : loc) (this : CosmicSphere)
        (P L : p5.Vector) (st : State) :
  nth_error (heap st) (pos this) = Some P ->
  nth_error (heap st) lightSource = Some L ->
  exists (st' : State) (calls : list p5.Call) (samples : list Sample),
    drawSphere random lightSource this st = Some (tt, st') /\
    canvas st' = canvas st ++ calls /\
    filter is_circle calls
      = [ p5.circle_ (p5.x P) (p5.y P) (size this * 2) ] /\
    sampled st' = sampled st ++ samples /\
    length samples = (2 * Z.to_nat (iterations this))%nat /\
    Forall (fun s =>
              s_radius s = size this /\
              s_cx s = p5.x P * 2 /\
              s_cy s = p5.y P * 2 /\
              on_circle (size this) (p5.x P * 2) (p5.y P * 2) (s_point s))
           samples.
Proof.
  intros HP HL.
  exists (after_drawSphere random this P L st). do 2 eexists.
  split; [now apply drawSphere_run|].
  split; [reflexivity|].
  split; [rewrite filter_app, circles_of_chords; reflexivity|].
  split; [reflexivity|].
  split.
  - rewrite (flat_map_constant_length (c := 2%nat)).
    + rewrite length_seq. lia.
    + intros k _. reflexivity.
  - apply Forall_flat_map, Forall_forall. intros k _.
    unfold nth_samples, chord_samples, sample1, sample2.
    repeat constructor; cbn [s_point]; apply edgePoint_on_circle.
Qed.

(** The small scene witnesses C8. *)
Lemma drawSphere_centres_witness :
  exists (st' : State) (calls : list p5.Call) (samples : list Sample),
    drawSphere scene_random scene_light scene_sphere scene_state
      = Some (tt, st') /\
    canvas st' = [] ++ calls /\
    filter is_circle calls = [ p5.circle_ 0 0 (100 * 2) ] /\
    sampled st' = [] ++ samples /\
    length samples = 2%nat /\
    Forall (fun s =>
              s_radius s = 100 /\
              s_cx s = 0 * 2 /\
              s_cy s = 0 * 2 /\
              on_circle 100 (0 * 2) (0 * 2) (s_point s))
           samples.
Proof.
  apply (drawSphere_centres scene_random scene_light scene_sphere
           scene_origin scene_origin scene_state); reflexivity.
Defined.

(** C9: two runs on spheres with the same radius, colour and chord count,
    whose centres hold the same coordinates, with lights at the same
    position and random sources that hand out the same angles, issue the
    same calls on the surface, whatever else differs between the two heaps
    and whatever was drawn before. *)
Theorem drawSphere_deterministic
        (random1 random2 : nat -> R) (light1 light2 : loc)
        (this1 this2 : CosmicSphere) (st1 st2 : State) (P L : p5.Vector) :
  size this1 = size this2 ->
  col this1 = col this2 ->
  iterations this1 = iterations this2 ->
  nth_error (heap st1) (pos this1) = Some P ->
  nth_error (heap st2) (pos this2) = Some P ->
  nth_error (heap st1) light1 = Some L ->
  nth_error (heap st2) light2 = Some L ->
  (forall j : nat, (j < 2 * Z.to_nat (iterations this1))%nat ->
                   random1 (seed st1 + j)%nat = random2 (seed st2 + j)%nat) ->
  exists (st1' st2' : State) (calls : list p5.Call),
    drawSphere random1 light1 this1 st1 = Some (tt, st1') /\
    drawSphere random2 light2 this2 st2 = Some (tt, st2') /\
    canvas st1' = canvas st1 ++ calls /\
    canvas st2' = canvas st2 ++ calls.
Proof.
  intros Hsz Hcol Hit HP1 HP2 HL1 HL2 Hrnd.
  exists (after_drawSphere random1 this1 P L st1),
         (after_drawSphere random2 this2 P L st2).
  eexists.
  split; [now apply drawSphere_run|].
  split; [now apply drawSphere_run|].
  split; [reflexivity|].
  unfold after_drawSphere. cbn [canvas].
  rewrite <- Hsz, <- Hcol, <- Hit. do 2 f_equal.
  apply flat_map_agree. intros k Hk. apply in_seq in Hk.
  unfold nth_calls.
  rewrite <- !Nat.add_assoc, <- !Hrnd by lia.
  reflexivity.
Qed.

(** The small scene, run from an empty canvas and from one that was drawn on
    before, witnesses C9. *)
Lemma drawSphere_deterministic_witness :
  exists (st1' st2' : State) (calls : list p5.Call),
    drawSphere scene_random scene_light scene_sphere scene_state
      = Some (tt, st1') /\
    drawSphere scene_random 0%nat scene_sphere
               (mkState [scene_origin] 0 [] [p5.noFill_])
      = Some (tt, st2') /\
    canvas st1' = [] ++ calls /\
    canvas st2' = [p5.noFill_] ++ calls.
Proof.
  apply (drawSphere_deterministic scene_random scene_random
           scene_light 0%nat scene_sphere scene_sphere scene_state
           (mkState [scene_origin] 0 [] [p5.noFill_])
           scene_origin scene_origin); reflexivity.
Defined.

(** C10: a render call leaves every vector that existed before it as it
    was; the heap only grows by the vectors of the sampled points.  In
    particular the sphere's centre and the light keep their coordinates.  The
    fields [size], [pos], [col] and [iterations] are only read: the routine
    takes the sphere as a value and has no assignment to them. *)
Theorem drawSphere_frame
        (random : nat -> R) (lightSource : loc) (this : CosmicSphere)
        (P L : p5.Vector) (st : State) :
  nth_error (heap st) (pos this) = Some P ->
  nth_error (heap st) lightSource = Some L ->
  exists (st' : State) (fresh : list p5.Vector),
    drawSphere random lightSource this st = Some (tt, st') /\
    heap st' = heap st ++ fresh /\
    (forall (l : loc) (v : p5.Vector),
        nth_error (heap st) l = Some v -> nth_error (heap st') l = Some v) /\
    nth_error (heap st') (pos this) = Some P /\
    nth_error (heap st') lightSource = Some L.
Proof.
  intros HP HL.
  exists (after_drawSphere random this P L st). eexists.
  split; [now apply drawSphere_run|].
  split; [reflexivity|].
  unfold after_drawSphere. cbn [heap].
  repeat split; intros; now apply nth_error_app_old.
Qed.

(** The small scene witnesses C10. *)
Lemma drawSphere_frame_witness :
  exists (st' : State) (fresh : list p5.Vector),
    drawSphere scene_random scene_light scene_sphere scene_state
      = Some (tt, st') /\
    heap st' = [scene_origin; scene_origin] ++ fresh /\
    (forall (l : loc) (v : p5.Vector),
        nth_error [scene_origin; scene_origin] l = Some v ->
        nth_error (heap st') l = Some v) /\
    nth_error (heap st') 0 = Some scene_origin /\
    nth_error (heap st') 1 = Some scene_origin.
Proof.
  apply (drawSphere_frame scene_random scene_light scene_sphere
           scene_origin scene_origin scene_state); reflexivity.
Defined.

(** * Further properties of the sketch *)

(** ** The loop *)

Lemma for_loop_rounds (body : M unit) (n : Z) (rounds : nat) :
  forall (fuel : nat) (i : Z) (st : State),
    rounds = Z.to_nat (n - i) ->
    (rounds < fuel)%nat ->
    for_loop fuel i n body st = repeat_body rounds body st.
Proof.
  induction rounds as [|r IH]; intros fuel i st Hr Hf.
  - destruct fuel as [|fuel]; [lia|]. cbn [for_loop repeat_body].
    destruct (Z.ltb_spec i n) as [Hlt|_]; [lia | reflexivity].
  - destruct fuel as [|fuel]; [lia|]. cbn [for_loop repeat_body].
    destruct (Z.ltb_spec i n) as [_|Hge]; [|lia].
    unfold bind. destruct (body st) as [[[] st1]|]; [|reflexivity].
    apply IH; lia.
Qed.

(** X1: the counted loop [for (var i = 0; i < n; i++)] runs its body
    max(0, n) times and stops: with more fuel than that it is the [n]-fold
    repetition of the body, on every state. *)
Theorem for_loop_runs_body_n_times
        (body : M unit) (n : Z) (fuel : nat) (st : State) :
  (Z.to_nat n < fuel)%nat ->
  for_loop fuel 0 n body st = repeat_body (Z.to_nat n) body st.
Proof.
  intros Hf. apply for_loop_rounds; [f_equal; lia | exact Hf].
Qed.

Lemma for_loop_runs_body_n_times_witness :
  for_loop 3 0 2 noFill scene_state = repeat_body (Z.to_nat 2) noFill scene_state.
Proof.
  apply (for_loop_runs_body_n_times noFill 2 3 scene_state). cbn. lia.
Defined.

(** ** Where the segments are *)

Lemma midPoint_coordinates (sz : R) (P : p5.Vector) (t1 t2 : R) :
  p5.x (chord_midPoint sz P t1 t2)
    = (p5.x (sample1 sz P t1) + p5.x (sample2 sz P t2)) / 2 /\
  p5.y (chord_midPoint sz P t1 t2)
    = (p5.y (sample1 sz P t1) + p5.y (sample2 sz P t2)) / 2.
Proof.
  unfold chord_midPoint, p5.div_v, p5.add_v.
  destruct (Req_dec_T 2 0) as [H|_]; [lra|].
  cbn [p5.x p5.y]. split; reflexivity.
Qed.

Lemma lines_of_samples random s sz P c L (l : list nat) :
  filter is_line (flat_map (nth_calls random s sz P c L) l)
  = midpoint_lines (flat_map (nth_samples random s sz P) l).
Proof.
  induction l as [|k l IH]; [reflexivity|].
  cbn [flat_map]. rewrite filter_app, IH.
  unfold nth_calls, nth_samples, chord_calls, chord_samples.
  cbn [filter is_line app midpoint_lines s_point].
  destruct (midPoint_coordinates sz P (random (s + 2 * k)%nat)
                                 (random (s + 2 * k + 1)%nat)) as [Hx Hy].
  rewrite Hx, Hy. reflexivity.
Qed.

(** X2: the segments that [drawSphere] draws are read off the random
    source's answers two by two: for each pair (p1, p2) of consecutive
    sampled points it draws the one segment from the midpoint of the pair
    to p2. *)
Theorem drawSphere_lines_from_midpoints
        (random : nat -> R) (lightSource : loc) (this : CosmicSphere)
        (P L : p5.Vector) (st : State) :
  nth_error (heap st) (pos this) = Some P ->
  nth_error (heap st) lightSource = Some L ->
  exists (st' : State) (calls : list p5.Call) (samples : list Sample),
    drawSphere random lightSource this st = Some (tt, st') /\
    canvas st' = canvas st ++ calls /\
    sampled st' = sampled st ++ samples /\
    filter is_line calls = midpoint_lines samples.
Proof.
  intros HP HL.
  exists (after_drawSphere random this P L st). do 2 eexists.
  split; [now apply drawSphere_run|].
  split; [reflexivity|]. split; [reflexivity|].
  rewrite filter_app. cbn [base_calls filter is_line app].
  apply lines_of_samples.
Qed.

Lemma drawSphere_lines_from_midpoints_witness :
  exists (st' : State) (calls : list p5.Call) (samples : list Sample),
    drawSphere scene_random scene_light scene_sphere scene_state
      = Some (tt, st') /\
    canvas st' = [] ++ calls /\
    sampled st' = [] ++ samples /\
    filter is_line calls = midpoint_lines samples.
Proof.
  apply (drawSphere_lines_from_midpoints scene_random scene_light
           scene_sphere scene_origin scene_origin scene_state); reflexivity.
Defined.

Lemma unit_vectors_dot (c1 s1 c2 s2 : R) :
  s1 * s1 + c1 * c1 = 1 -> s2 * s2 + c2 * c2 = 1 ->
  -1 <= c1 * c2 + s1 * s2 <= 1.
Proof.
  intros H1 H2.
  pose proof (Rle_0_sqr (c1 + c2)) as A. pose proof (Rle_0_sqr (s1 + s2)) as B.
  pose proof (Rle_0_sqr (c1 - c2)) as C. pose proof (Rle_0_sqr (s1 - s2)) as D.
  unfold Rsqr in *. lra.
Qed.

Lemma sin_cos_unit (t : R) : sin t * sin t + cos t * cos t = 1.
Proof. pose proof (sin2_cos2 t) as H. unfold Rsqr in H. exact H. Qed.

Lemma chord_segment_geometry (sz : R) (P : p5.Vector) (t1 t2 : R) :
  let m := chord_midPoint sz P t1 t2 in
  let p2 := sample2 sz P t2 in
  sq_dist (p5.x P * 2) (p5.y P * 2) (p5.x m) (p5.y m) <= sz * sz /\
  sq_dist (p5.x P * 2) (p5.y P * 2) (p5.x p2) (p5.y p2) = sz * sz /\
  sq_dist (p5.x m) (p5.y m) (p5.x p2) (p5.y p2) <= sz * sz.
Proof.
  cbv zeta.
  destruct (midPoint_coordinates sz P t1 t2) as [Hx Hy]. rewrite Hx, Hy.
  unfold sample1, sample2, edgePoint, sq_dist. cbn [p5.x p5.y].
  pose proof (sin_cos_unit t1) as U1. pose proof (sin_cos_unit t2) as U2.
  pose proof (unit_vectors_dot _ _ _ _ U1 U2) as [Dlo Dhi].
  generalize dependent (cos t1). generalize dependent (sin t1).
  generalize dependent (cos t2). generalize dependent (sin t2).
  intros s2 c2 U2 s1 c1 U1 Dlo Dhi.
  pose proof (Rle_0_sqr sz) as Hsz. unfold Rsqr in Hsz.
  repeat split.
  - replace ((p5.x P * 2 + sz * c1 + (p5.x P * 2 + sz * c2)) / 2 - p5.x P * 2)
      with (sz * (c1 + c2) / 2) by lra.
    replace ((p5.y P * 2 + sz * s1 + (p5.y P * 2 + sz * s2)) / 2 - p5.y P * 2)
      with (sz * (s1 + s2) / 2) by lra.
    assert (Q : sz * (c1 + c2) / 2 * (sz * (c1 + c2) / 2)
                + sz * (s1 + s2) / 2 * (sz * (s1 + s2) / 2)
                = sz * sz * ((1 + (c1 * c2 + s1 * s2)) / 2)) by nra.
    rewrite Q. nra.
  - nra.
  - replace (p5.x P * 2 + sz * c2
             - (p5.x P * 2 + sz * c1 + (p5.x P * 2 + sz * c2)) / 2)
      with (sz * (c2 - c1) / 2) by lra.
    replace (p5.y P * 2 + sz * s2
             - (p5.y P * 2 + sz * s1 + (p5.y P * 2 + sz * s2)) / 2)
      with (sz * (s2 - s1) / 2) by lra.
    assert (Q : sz * (c2 - c1) / 2 * (sz * (c2 - c1) / 2)
                + sz * (s2 - s1) / 2 * (sz * (s2 - s1) / 2)
                = sz * sz * ((1 - (c1 * c2 + s1 * s2)) / 2)) by nra.
    rewrite Q. nra.
Qed.

Lemma Forall_chord_calls (Q : p5.Call -> Prop) random s sz P c L (n : nat) :
  (forall cl, is_line cl = false -> Q cl) ->
  (forall t1 t2,
      Q (p5.line_ (p5.x (chord_midPoint sz P t1 t2))
                  (p5.y (chord_midPoint sz P t1 t2))
                  (p5.x (sample2 sz P t2)) (p5.y (sample2 sz P t2)))) ->
  Forall Q (base_calls sz P ++
            flat_map (nth_calls random s sz P c L) (seq 0 n)).
Proof.
  intros Hother Hline. apply Forall_app. split.
  - unfold base_calls. repeat constructor; now apply Hother.
  - apply Forall_flat_map, Forall_forall. intros k _.
    unfold nth_calls, chord_calls.
    repeat constructor; try (now apply Hother). apply Hline.
Qed.

(** X3: every segment drawn lies in the disc of radius [size] about the
    doubled centre (pos.x * 2, pos.y * 2): it starts inside or on that
    circle and ends on it.  The base disc is the one about (pos.x, pos.y). *)
Theorem drawSphere_segments_in_doubled_disc
        (random : nat -> R) (lightSource : loc) (this : CosmicSphere)
        (P L : p5.Vector) (st : State) :
  nth_error (heap st) (pos this) = Some P ->
  nth_error (heap st) lightSource = Some L ->
  exists (st' : State) (calls : list p5.Call),
    drawSphere random lightSource this st = Some (tt, st') /\
    canvas st' = canvas st ++ calls /\
    Forall (segment_in_disc (size this) (p5.x P * 2) (p5.y P * 2)) calls.
Proof.
  intros HP HL.
  exists (after_drawSphere random this P L st). eexists.
  split; [now apply drawSphere_run|].
  split; [reflexivity|].
  apply Forall_chord_calls.
  - intros [] Hc; try exact I. discriminate Hc.
  - intros t1 t2. cbn [segment_in_disc].
    pose proof (chord_segment_geometry (size this) P t1 t2) as G.
    cbv zeta in G. tauto.
Qed.

Lemma drawSphere_segments_in_doubled_disc_witness :
  exists (st' : State) (calls : list p5.Call),
    drawSphere scene_random scene_light scene_sphere scene_state
      = Some (tt, st') /\
    canvas st' = [] ++ calls /\
    Forall (segment_in_disc 100 (0 * 2) (0 * 2)) calls.
Proof.
  apply (drawSphere_segments_in_doubled_disc scene_random scene_light
           scene_sphere scene_origin scene_origin scene_state); reflexivity.
Defined.

(** X4: no segment drawn is longer than the radius [size]: a segment is
    half a chord of the sampling circle. *)
Theorem drawSphere_segments_at_most_radius
        (random : nat -> R) (lightSource : loc) (this : CosmicSphere)
        (P L : p5.Vector) (st : State) :
  nth_error (heap st) (pos this) = Some P ->
  nth_error (heap st) lightSource = Some L ->
  exists (st' : State) (calls : list p5.Call),
    drawSphere random lightSource this st = Some (tt, st') /\
    canvas st' = canvas st ++ calls /\
    Forall (segment_at_most (size this)) calls.
Proof.
  intros HP HL.
  exists (after_drawSphere random this P L st). eexists.
  split; [now apply drawSphere_run|].
  split; [reflexivity|].
  apply Forall_chord_calls.
  - intros [] Hc; try exact I. discriminate Hc.
  - intros t1 t2. cbn [segment_at_most].
    pose proof (chord_segment_geometry (size this) P t1 t2) as G.
    cbv zeta in G. tauto.
Qed.

Lemma drawSphere_segments_at_most_radius_witness :
  exists (st' : State) (calls : list p5.Call),
    drawSphere scene_random scene_light scene_sphere scene_state
      = Some (tt, st') /\
    canvas st' = [] ++ calls /\
    Forall (segment_at_most 100) calls.
Proof.
  apply (drawSphere_segments_at_most_radius scene_random scene_light
           scene_sphere scene_origin scene_origin scene_state); reflexivity.
Defined.

(** ** What a render call uses and leaves behind *)

(** X5: a render call draws 2 * iterations random numbers and leaves
    2 * iterations new vectors on the heap, two per chord. *)
Theorem drawSphere_consumption
        (random : nat -> R) (lightSource : loc) (this : CosmicSphere)
        (P L : p5.Vector) (st : State) :
  nth_error (heap st) (pos this) = Some P ->
  nth_error (heap st) lightSource = Some L ->
  exists st' : State,
    drawSphere random lightSource this st = Some (tt, st') /\
    seed st' = (seed st + 2 * Z.to_nat (iterations this))%nat /\
    length (heap st')
      = (length (heap st) + 2 * Z.to_nat (iterations this))%nat.
Proof.
  intros HP HL.
  exists (after_drawSphere random this P L st).
  split; [now apply drawSphere_run|].
  split; [reflexivity|].
  unfold after_drawSphere. cbn [heap].
  rewrite length_app, (flat_map_constant_length (c := 2%nat)).
  - rewrite length_seq. lia.
  - intros k _. reflexivity.
Qed.

Lemma drawSphere_consumption_witness :
  exists st' : State,
    drawSphere scene_random scene_light scene_sphere scene_state
      = Some (tt, st') /\
    seed st' = (0 + 2 * 1)%nat /\
    length (heap st') = (2 + 2 * 1)%nat.
Proof.
  apply (drawSphere_consumption scene_random scene_light scene_sphere
           scene_origin scene_origin scene_state); reflexivity.
Defined.

(** X6: when [this.pos] holds no vector, [drawSphere] throws: reading
    [this.pos.x] for the base circle fails, whatever the chord count and the
    light. *)
Theorem drawSphere_throws_without_centre
        (random : nat -> R) (lightSource : loc) (this : CosmicSphere)
        (st : State) :
  nth_error (heap st) (pos this) = None ->
  drawSphere random lightSource this st = None.
Proof.
  intros HP. unfold drawSphere. step. rewrite HP. reflexivity.
Qed.

Lemma drawSphere_throws_without_centre_witness :
  drawSphere scene_random scene_light scene_sphere (mkState [] 0 [] []) = None.
Proof.
  apply (drawSphere_throws_without_centre scene_random scene_light
           scene_sphere (mkState [] 0 [] [])).
  reflexivity.
Defined.

(** X7: with a chord count of 0 or below, [drawSphere] only issues the five
    calls of the base disc: it draws no random number, creates no vector and
    never reads the light, which may then hold no vector at all. *)
Theorem drawSphere_without_chords
        (random : nat -> R) (lightSource : loc) (this : CosmicSphere)
        (P : p5.Vector) (st : State) :
  nth_error (heap st) (pos this) = Some P ->
  (iterations this <= 0)%Z ->
  drawSphere random lightSource this st =
  Some (tt, mkState (heap st) (seed st) (sampled st)
                    (canvas st ++ base_calls (size this) P)).
Proof.
  intros HP Hn. unfold drawSphere.
  replace (Z.to_nat (iterations this)) with 0%nat by lia.
  step. rewrite HP. step. rewrite HP. step.
  cbn [repeat_body]. step. unfold base_calls.
  rewrite <- !app_assoc. reflexivity.
Qed.

Lemma drawSphere_without_chords_witness :
  drawSphere scene_random 7%nat
             (mkCosmicSphere 100 0%nat (Vec4.mk 255 0 255 200) (-3))
             scene_state =
  Some (tt, mkState [scene_origin; scene_origin] 0 []
                    ([] ++ base_calls 100 scene_origin)).
Proof.
  apply (drawSphere_without_chords scene_random 7%nat
           (mkCosmicSphere 100 0%nat (Vec4.mk 255 0 255 200) (-3))
           scene_origin scene_state).
  - reflexivity.
  - cbn. lia.
Defined.

(** X8: a render call does not restore the surface.  The settings it makes
    are, in order, blend mode source-over, black fill, blend mode ADD and
    noFill; so it leaves the surface in ADD mode with the fill off. *)
Theorem drawSphere_settings
        (random : nat -> R) (lightSource : loc) (this : CosmicSphere)
        (P L : p5.Vector) (st : State) :
  nth_error (heap st) (pos this) = Some P ->
  nth_error (heap st) lightSource = Some L ->
  exists (st' : State) (calls : list p5.Call),
    drawSphere random lightSource this st = Some (tt, st') /\
    canvas st' = canvas st ++ calls /\
    filter is_setting calls =
    [ p5.blendMode_ p5.BLEND; p5.fill_ (p5.color 0 0 0 255);
      p5.blendMode_ p5.ADD; p5.noFill_ ].
Proof.
  intros HP HL.
  exists (after_drawSphere random this P L st). eexists.
  split; [now apply drawSphere_run|].
  split; [reflexivity|].
  rewrite filter_app, filter_flat_map.
  rewrite (flat_map_ext _ (fun _ => [])) by (intros k; reflexivity).
  rewrite flat_map_none. reflexivity.
Qed.

Lemma drawSphere_settings_witness :
  exists (st' : State) (calls : list p5.Call),
    drawSphere scene_random scene_light scene_sphere scene_state
      = Some (tt, st') /\
    canvas st' = [] ++ calls /\
    filter is_setting calls =
    [ p5.blendMode_ p5.BLEND; p5.fill_ (p5.color 0 0 0 255);
      p5.blendMode_ p5.ADD; p5.noFill_ ].
Proof.
  apply (drawSphere_settings scene_random scene_light scene_sphere
           scene_origin scene_origin scene_state); reflexivity.
Defined.

(** ** Frame after frame *)

Lemma drawSphere_keeps (random : nat -> R) (this : CosmicSphere)
      (P L : p5.Vector) (st : State) (l : loc) (v : p5.Vector) :
  nth_error (heap st) l = Some v ->
  nth_error (heap (after_drawSphere random this P L st)) l = Some v.
Proof.
  intros H. unfold after_drawSphere. cbn [heap]. now apply nth_error_app_old.
Qed.

(** X9: [drawSphere] can be called frame after frame.  Any number of
    successive calls succeed; together they draw one circle and
    [iterations] segments per frame and use 2 * iterations random numbers
    per frame, and the centre and the light still hold their coordinates
    afterwards. *)
Theorem drawSphere_frames
        (random : nat -> R) (lightSource : loc) (this : CosmicSphere)
        (P L : p5.Vector) (frames : nat) (st : State) :
  nth_error (heap st) (pos this) = Some P ->
  nth_error (heap st) lightSource = Some L ->
  exists (st' : State) (calls : list p5.Call),
    repeat_body frames (drawSphere random lightSource this) st
      = Some (tt, st') /\
    canvas st' = canvas st ++ calls /\
    length (filter is_circle calls) = frames /\
    length (filter is_line calls)
      = (frames * Z.to_nat (iterations this))%nat /\
    seed st' = (seed st + frames * (2 * Z.to_nat (iterations this)))%nat /\
    nth_error (heap st') (pos this) = Some P /\
    nth_error (heap st') lightSource = Some L.
Proof.
  revert st. induction frames as [|f IH]; intros st HP HL.
  - exists st, []. cbn [repeat_body ret filter length Nat.mul].
    rewrite app_nil_r, Nat.add_0_r. repeat split; assumption.
  - pose proof (drawSphere_run random lightSource this P L st HP HL) as Hrun.
    destruct (IH (after_drawSphere random this P L st)
                 (drawSphere_keeps _ _ _ _ _ _ _ HP)
                 (drawSphere_keeps _ _ _ _ _ _ _ HL))
      as (st' & calls & Hrest & Hcanvas & Hcircles & Hlines & Hseed & HP' & HL').
    exists st'. eexists.
    split; [cbn [repeat_body]; unfold bind; rewrite Hrun; exact Hrest|].
    split.
    { rewrite Hcanvas. unfold after_drawSphere. cbn [canvas].
      rewrite <- !app_assoc. reflexivity. }
    rewrite !filter_app, !length_app, circles_of_chords, lines_of_chords.
    rewrite Hcircles, Hlines, Hseed.
    unfold after_drawSphere. cbn [seed base_calls filter is_circle is_line length].
    repeat split; try assumption; lia.
Qed.

Lemma drawSphere_frames_witness :
  exists (st' : State) (calls : list p5.Call),
    repeat_body 3 (drawSphere scene_random scene_light scene_sphere)
                scene_state
      = Some (tt, st') /\
    canvas st' = [] ++ calls /\
    length (filter is_circle calls) = 3%nat /\
    length (filter is_line calls) = (3 * 1)%nat /\
    seed st' = (0 + 3 * (2 * 1))%nat /\
    nth_error (heap st') 0 = Some scene_origin /\
    nth_error (heap st') 1 = Some scene_origin.
Proof.
  apply (drawSphere_frames scene_random scene_light scene_sphere
           scene_origin scene_origin 3 scene_state); reflexivity.
Defined.

(** ** The opacity of a chord *)

Lemma constrain_monotone (n m low high : R) :
  n <= m -> p5.constrain n low high <= p5.constrain m low high.
Proof.
  intros H. unfold p5.constrain, Rmax, Rmin.
  repeat destruct Rle_dec; lra.
Qed.

(** X10: for a positive radius the length factor does not grow with the
    chord length: the longer chord is the fainter one. *)
Theorem aLineLen_decreasing (radius len1 len2 : R) :
  0 < radius ->
  len1 <= len2 ->
  aLineLen radius len2 <= aLineLen radius len1.
Proof.
  intros Hr Hl. rewrite !aLineLen_eq. apply constrain_monotone.
  assert (Hq : len1 / (radius * 2) <= len2 / (radius * 2)).
  { apply Rmult_le_compat_r; [|exact Hl].
    apply Rlt_le, Rinv_0_lt_compat. lra. }
  lra.
Qed.

Lemma aLineLen_decreasing_witness :
  aLineLen 100 150 <= aLineLen 100 50.
Proof.
  apply (aLineLen_decreasing 100 50 150); lra.
Defined.

Lemma chord_lenLine_bounds (sz : R) (P : p5.Vector) (t1 t2 : R) :
  0 < sz -> 0 <= chord_lenLine sz P t1 t2 <= 2 * sz.
Proof.
  intros Hsz. unfold chord_lenLine, p5.dist_v, p5.mag.
  split; [apply sqrt_pos|].
  rewrite <- (sqrt_square (2 * sz)) by lra.
  apply sqrt_le_1_alt.
  unfold p5.sub_v, sample1, sample2, edgePoint. cbn [p5.x p5.y p5.z].
  pose proof (sin_cos_unit t1) as U1. pose proof (sin_cos_unit t2) as U2.
  pose proof (unit_vectors_dot _ _ _ _ U1 U2) as [Dlo Dhi].
  generalize dependent (cos t1). generalize dependent (sin t1).
  generalize dependent (cos t2). generalize dependent (sin t2).
  intros s2 c2 U2 s1 c1 U1 Dlo Dhi.
  replace (p5.x P * 2 + sz * c2 - (p5.x P * 2 + sz * c1))
    with (sz * (c2 - c1)) by lra.
  replace (p5.y P * 2 + sz * s2 - (p5.y P * 2 + sz * s1))
    with (sz * (s2 - s1)) by lra.
  assert (Q : sz * (c2 - c1) * (sz * (c2 - c1))
              + sz * (s2 - s1) * (sz * (s2 - s1)) + (0 - 0) * (0 - 0)
              = sz * sz * (2 - 2 * (c1 * c2 + s1 * s2))) by nra.
  rewrite Q. nra.
Qed.

(** X11: for a positive radius a chord is never longer than the diameter,
    so the clamp of the length factor never acts, and the combined opacity
    of a chord is ((dLight - 600) / 600) * (1 - 0.7 * lenLine / (2 * size)). *)
Theorem chord_alpha_closed_form
        (sz : R) (P L : p5.Vector) (t1 t2 : R) :
  0 < sz ->
  0 <= chord_lenLine sz P t1 t2 <= 2 * sz /\
  chord_alpha sz P L t1 t2
  = (chord_dLight sz P L t1 t2 - 600) / 600
    * (1 - 0.7 * (chord_lenLine sz P t1 t2 / (2 * sz))).
Proof.
  intros Hsz. pose proof (chord_lenLine_bounds sz P t1 t2 Hsz) as B.
  split; [exact B|].
  unfold chord_alpha. rewrite aLight_eq, aLineLen_eq.
  replace (sz * 2) with (2 * sz) by ring.
  assert (Hq : chord_lenLine sz P t1 t2 / (2 * sz) * (2 * sz)
               = chord_lenLine sz P t1 t2) by (field; lra).
  revert Hq B. generalize (chord_lenLine sz P t1 t2). intros len.
  generalize (len / (2 * sz)). intros q Hq B.
  rewrite constrain_inside; [lra|]. nra.
Qed.

Lemma chord_alpha_closed_form_witness :
  0 <= chord_lenLine 100 scene_origin 0 PI <= 2 * 100 /\
  chord_alpha 100 scene_origin scene_origin 0 PI
  = (chord_dLight 100 scene_origin scene_origin 0 PI - 600) / 600
    * (1 - 0.7 * (chord_lenLine 100 scene_origin 0 PI / (2 * 100))).
Proof.
  apply (chord_alpha_closed_form 100 scene_origin scene_origin 0 PI). lra.
Defined.

(** ** Two special chords *)

Lemma aLineLen_zero (sz : R) : aLineLen sz 0 = 1.
Proof.
  rewrite aLineLen_eq. unfold Rdiv. rewrite Rmult_0_l.
  rewrite constrain_inside; lra.
Qed.

Lemma aLineLen_diameter (sz : R) : 0 < sz -> aLineLen sz (2 * sz) = 0.3.
Proof.
  intros Hsz. rewrite aLineLen_eq.
  replace (2 * sz / (sz * 2)) with 1 by (field; lra).
  rewrite constrain_inside; lra.
Qed.

(** X12: when the random source answers the same angle twice, the chord
    degenerates: the segment drawn is the single sampled point p, the length
    factor is 1, and the stroke colour is computed from the light factor at
    the distance of p from the light alone. *)
Theorem chord_of_equal_angles
        (random : nat -> R) (lightSource : loc) (this : CosmicSphere)
        (P L : p5.Vector) (st : State) :
  nth_error (heap st) (pos this) = Some P ->
  nth_error (heap st) lightSource = Some L ->
  0 < size this ->
  random (S (seed st)) = random (seed st) ->
  exists st' : State,
    chord random lightSource this st = Some (tt, st') /\
    canvas st' = canvas st ++
      let p := edgePoint (size this) (p5.x P * 2) (p5.y P * 2)
                         (random (seed st)) in
      let light := aLight (p5.dist_v p L) in
      [ p5.stroke_ (p5.color (Vec4.a (col this))
                             (Vec4.b (col this) - light * Vec4.b (col this))
                             (Vec4.c (col this))
                             (light * Vec4.d (col this)));
        p5.strokeWeight_ 1.0;
        p5.line_ (p5.x p) (p5.y p) (p5.x p) (p5.y p) ].
Proof.
  intros HP HL Hsz Heq.
  eexists. split; [now apply (chord_run random lightSource this st P L)|].
  cbn [canvas]. cbv zeta. f_equal. rewrite Heq.
  set (t := random (seed st)).
  assert (Hm : chord_midPoint (size this) P t t = sample1 (size this) P t).
  { unfold chord_midPoint, p5.div_v, p5.add_v, sample2, sample1, edgePoint.
    destruct (Req_dec_T 2 0) as [H|_]; [lra|].
    cbn [p5.x p5.y p5.z]. f_equal; lra. }
  assert (Hl : chord_lenLine (size this) P t t = 0).
  { unfold chord_lenLine, sample2, sample1, p5.dist_v, p5.mag, p5.sub_v.
    cbn [p5.x p5.y p5.z]. rewrite <- sqrt_0 at 1. f_equal. ring. }
  unfold chord_calls, chord_color, chord_alpha, chord_dLight.
  rewrite Hm, Hl, aLineLen_zero, Rmult_1_r.
  reflexivity.
Qed.

Lemma chord_of_equal_angles_witness :
  exists st' : State,
    chord (fun _ => 0) scene_light scene_sphere scene_state = Some (tt, st') /\
    canvas st' = [] ++
      [ p5.stroke_
          (p5.color 255
             (0 - aLight (p5.dist_v (edgePoint 100 (0 * 2) (0 * 2) 0)
                                    scene_origin) * 0)
             255
             (aLight (p5.dist_v (edgePoint 100 (0 * 2) (0 * 2) 0)
                                scene_origin) * 200));
        p5.strokeWeight_ 1.0;
        p5.line_ (p5.x (edgePoint 100 (0 * 2) (0 * 2) 0))
                 (p5.y (edgePoint 100 (0 * 2) (0 * 2) 0))
                 (p5.x (edgePoint 100 (0 * 2) (0 * 2) 0))
                 (p5.y (edgePoint 100 (0 * 2) (0 * 2) 0)) ].
Proof.
  apply (chord_of_equal_angles (fun _ => 0) scene_light scene_sphere
           scene_origin scene_origin scene_state).
  - reflexivity.
  - reflexivity.
  - cbn [scene_sphere size]. lra.
  - reflexivity.
Defined.

(** X13: when the second angle is the first plus pi, the chord is a
    diameter of the sampling circle: the segment drawn runs from the doubled
    centre (pos.x * 2, pos.y * 2) to the second sampled point, the length
    factor is 0.3, and the light factor is taken at the distance of the
    doubled centre from the light. *)
Theorem chord_of_opposite_angles
        (random : nat -> R) (lightSource : loc) (this : CosmicSphere)
        (P L : p5.Vector) (st : State) :
  nth_error (heap st) (pos this) = Some P ->
  nth_error (heap st) lightSource = Some L ->
  0 < size this ->
  random (S (seed st)) = random (seed st) + PI ->
  exists st' : State,
    chord random lightSource this st = Some (tt, st') /\
    canvas st' = canvas st ++
      let centre := p5.createVector (p5.x P * 2) (p5.y P * 2) 0 in
      let combined := aLight (p5.dist_v centre L) * 0.3 in
      [ p5.stroke_ (p5.color (Vec4.a (col this))
                             (Vec4.b (col this) - combined * Vec4.b (col this))
                             (Vec4.c (col this))
                             (combined * Vec4.d (col this)));
        p5.strokeWeight_ 1.0;
        p5.line_ (p5.x P * 2) (p5.y P * 2)
                 (p5.x P * 2 - size this * cos (random (seed st)))
                 (p5.y P * 2 - size this * sin (random (seed st))) ].
Proof.
  intros HP HL Hsz Heq.
  eexists. split; [now apply (chord_run random lightSource this st P L)|].
  cbn [canvas]. cbv zeta. f_equal. rewrite Heq.
  set (t := random (seed st)). set (sz := size this) in *.
  assert (H2 : sample2 sz P (t + PI)
               = p5.createVector (p5.x P * 2 - sz * cos t)
                                 (p5.y P * 2 - sz * sin t) 0).
  { unfold sample2, edgePoint. rewrite neg_cos, neg_sin. f_equal; lra. }
  assert (Hm : chord_midPoint sz P t (t + PI)
               = p5.createVector (p5.x P * 2) (p5.y P * 2) 0).
  { unfold chord_midPoint. rewrite H2.
    unfold p5.div_v, p5.add_v, sample1, edgePoint.
    destruct (Req_dec_T 2 0) as [H|_]; [lra|].
    cbn [p5.x p5.y p5.z]. f_equal; lra. }
  assert (Hl : chord_lenLine sz P t (t + PI) = 2 * sz).
  { unfold chord_lenLine. rewrite H2.
    unfold sample1, edgePoint, p5.dist_v, p5.mag, p5.sub_v.
    cbn [p5.x p5.y p5.z].
    rewrite <- (sqrt_square (2 * sz)) at 1 by lra. f_equal.
    pose proof (sin_cos_unit t) as U. nra. }
  unfold chord_calls, chord_color, chord_alpha, chord_dLight.
  rewrite Hm, Hl, aLineLen_diameter by exact Hsz. rewrite H2.
  reflexivity.
Qed.

Lemma chord_of_opposite_angles_witness :
  exists st' : State,
    chord scene_random scene_light scene_sphere scene_state
      = Some (tt, st') /\
    canvas st' = [] ++
      [ p5.stroke_
          (p5.color 255
             (0 - aLight (p5.dist_v (p5.createVector (0 * 2) (0 * 2) 0)
                                    scene_origin) * 0.3 * 0)
             255
             (aLight (p5.dist_v (p5.createVector (0 * 2) (0 * 2) 0)
                                scene_origin) * 0.3 * 200));
        p5.strokeWeight_ 1.0;
        p5.line_ (0 * 2) (0 * 2)
                 (0 * 2 - 100 * cos 0) (0 * 2 - 100 * sin 0) ].
Proof.
  apply (chord_of_opposite_angles scene_random scene_light scene_sphere
           scene_origin scene_origin scene_state).
  - reflexivity.
  - reflexivity.
  - cbn [scene_sphere size]. lra.
  - cbn [scene_random scene_state seed]. lra.
Defined.
